(** * netpoll_options.go: functional options and the connection-preparation hook

    A shallow embedding of package netpoll's option layer:

    - the three process-wide tuning entry points [SetNumLoops],
      [SetLoadBalance] and [DisableGopool];
    - the option factories [WithOnPrepare], [WithReadTimeout] and
      [WithIdleTimeout], the [Option] wrapper and the [options] struct;
    - the method [prepare], which turns the resolved options and a request
      handler into the hook the event loop runs on every accepted connection.

    Go mutates objects through pointers.  Here every mutation is explicit
    state passing: an [Option] maps an [options] value to the updated one, and
    the hook is a state transformer over a [World] holding the one shared
    [options] cell and the store of live connection objects. *)

From Stdlib Require Import ZArith Lia.
From stdpp Require Import base option list gmap strings.

(** ** Durations and integers *)

(** [time.Duration] is a signed 64-bit count of nanoseconds.  The code of this
    file only stores and forwards durations, it never computes with them, so
    no wrap-around can occur and a duration is the integer it denotes. *)
Definition Duration : Type := Z.

Definition Nanosecond : Duration := 1%Z.
Definition Second : Duration := (1000000000 * Nanosecond)%Z.

(** ** Global tuning entry points *)

Section Tuning.
(** The poller manager is declared outside this file.  Its process-wide
    state, its error values, the [LoadBalance] enumeration and its three
    operations are parameters; an operation reads and updates the manager
    state and returns a Go [error], [None] standing for [nil]. *)
Variables (engine error LoadBalance : Type).
Variable setNumLoops : Z -> engine -> option error * engine.
Variable setLoadBalance : LoadBalance -> engine -> option error * engine.
Variable disableGopool : engine -> option error * engine.

Definition SetNumLoops (numLoops : Z) : engine -> option error * engine :=
  setNumLoops numLoops.

Definition SetLoadBalance (lb : LoadBalance) : engine -> option error * engine :=
  setLoadBalance lb.

Definition DisableGopool : engine -> option error * engine :=
  disableGopool.

(** What the documentation asks of an entry point [entry] placed in front
    of an engine operation [op]: on every argument and every engine state
    the caller sees the result of [op], and the engine is left in the state
    [op] leaves it in. *)
Definition forwards {A : Type}
    (entry op : A -> engine -> option error * engine) : Prop :=
  ∀ (a : A) (e : engine),
    (entry a e).1 = (op a e).1 ∧ (entry a e).2 = (op a e).2.
End Tuning.

(** ** Connections, callbacks and options *)

Section Netpoll.
(** [context.Context] and the value of [context.Background()]. *)
Variables (context : Type) (Background : context).
(** Request handlers, the function values of type [OnRequest]. *)
Variable OnRequest : Type.

(** The part of the [Connection] interface that [prepare] calls.  A method
    call on a connection object of state [c] leaves it in the returned
    state.  The [error] results of the three setters are dropped by
    [prepare] and are not represented. *)
Class Connection (C : Type) := {
  SetOnRequest : OnRequest -> C -> C;
  SetReadTimeout : Duration -> C -> C;
  SetIdleTimeout : Duration -> C -> C
}.

(** Modelled from the spec: the connection implementation is not part of
    this file.  The spec describes a connection as holding a request
    handler and two timers which the setters install.  [Observable] names
    these three observations. *)
Class Observable (C : Type) := {
  handlerOf : C -> option OnRequest;
  readTimeoutOf : C -> Duration;
  idleTimeoutOf : C -> Duration
}.

(** Modelled from the spec: a setter installs its argument and leaves the
    two other observations alone. *)
Class ConnectionSpec (C : Type) `{!Connection C, !Observable C} : Prop := {
  handler_SetOnRequest h c : handlerOf (SetOnRequest h c) = Some h;
  handler_SetReadTimeout d c : handlerOf (SetReadTimeout d c) = handlerOf c;
  handler_SetIdleTimeout d c : handlerOf (SetIdleTimeout d c) = handlerOf c;
  read_SetOnRequest h c : readTimeoutOf (SetOnRequest h c) = readTimeoutOf c;
  read_SetReadTimeout d c : readTimeoutOf (SetReadTimeout d c) = d;
  read_SetIdleTimeout d c : readTimeoutOf (SetIdleTimeout d c) = readTimeoutOf c;
  idle_SetOnRequest h c : idleTimeoutOf (SetOnRequest h c) = idleTimeoutOf c;
  idle_SetReadTimeout d c : idleTimeoutOf (SetReadTimeout d c) = idleTimeoutOf c;
  idle_SetIdleTimeout d c : idleTimeoutOf (SetIdleTimeout d c) = d
}.

Section WithConnection.
Variable C : Type.
Context `{!Connection C}.

(** A [Connection] value is a reference to a connection object: a key of
    the store [gmap nat C] of live connection objects.  A method call
    through a reference updates the object in place.  The event loop hands
    the hook the connection it has just accepted, a live object; on a key
    that names no object a call changes nothing. *)
Definition call (connection : nat) (method : C -> C)
    (conns : gmap nat C) : gmap nat C :=
  alter method connection conns.

(** A non-nil function value of type [OnPrepare] supplied by a caller.  It
    receives the connection and may call the methods of any connection it
    can reach.  The [options] struct is unexported and never handed out,
    so a caller's function has no access to it: its effect is on the
    store of connections only. *)
Definition OnPrepareFunc : Type :=
  nat -> gmap nat C -> context * gmap nat C.

(** [type options struct]; [onPrepare] is a function value and may be
    [nil], which is [None]. *)
Record options : Type := Build_options {
  onPrepare : option OnPrepareFunc;
  readTimeout : Duration;
  idleTimeout : Duration
}.

(** [type Option struct]: its one field [f] is a function taking a
    pointer to an [options] struct, which it updates in place.  [f] is
    unexported, so the Options a caller can fill in are those built by the
    three factories below; each wraps a closure.  An [Option] here is a
    struct value whose [f] is not nil; the zero value of the struct, whose
    [f] is nil, is the [None] of [option Option], which is what
    [resolve_from] below takes. *)
Record Option : Type := Build_Option { f : options -> options }.

Definition WithOnPrepare (onPrepare' : option OnPrepareFunc) : Option :=
  Build_Option (fun op =>
    Build_options onPrepare' (readTimeout op) (idleTimeout op)).

Definition WithReadTimeout (timeout : Duration) : Option :=
  Build_Option (fun op =>
    Build_options (onPrepare op) timeout (idleTimeout op)).

Definition WithIdleTimeout (timeout : Duration) : Option :=
  Build_Option (fun op =>
    Build_options (onPrepare op) (readTimeout op) timeout).

(** The zero value [options{}]. *)
Definition zero : options := Build_options None 0%Z 0%Z.

(** Modelled from the spec: the constructor that resolves the options is
    not part of this file.  It starts from the zero value and applies
    each Option's mutation in the order the caller gave them. *)
Definition apply_from (start : options) (ops : list Option) : options :=
  foldl (fun op o => f o op) start ops.

Definition resolve (ops : list Option) : options := apply_from zero ops.

(** The state a hook runs in: the [options] struct its receiver [opt]
    points to, and the store of connection objects. *)
Record World : Type := Build_World {
  opts : options;
  conns : gmap nat C
}.

(** Computations over the [World] returning a value. *)
Definition M (A : Type) : Type := World -> A * World.

Definition ret {A : Type} (a : A) : M A := fun w => (a, w).

Definition bind {A B : Type} (m : M A) (k : A -> M B) : M B :=
  fun w => let (a, w') := m w in k a w'.

(** [opt.field]: a read through the receiver. *)
Definition load {A : Type} (field : options -> A) : M A :=
  fun w => (field (opts w), w).

(** [connection.method(...)]: a call whose result is dropped. *)
Definition invoke (connection : nat) (method : C -> C) : M unit :=
  fun w => (tt, Build_World (opts w) (call connection method (conns w))).

(** A call of a caller-supplied function on the connection. *)
Definition run (cb : OnPrepareFunc) (connection : nat) : M context :=
  fun w => let (ctx, conns') := cb connection (conns w) in
           (ctx, Build_World (opts w) conns').

(** The method [prepare(onRequest OnRequest) OnPrepare] of a pointer
    receiver [opt].  The returned closure captures the pointer [opt], so
    it reads the fields when it is invoked, from the [World] it is
    invoked in. *)
Definition prepare (onRequest : OnRequest) : nat -> M context :=
  fun connection =>
    bind (invoke connection (SetOnRequest onRequest)) (fun _ =>
    bind (load readTimeout) (fun r =>
    bind (invoke connection (SetReadTimeout r)) (fun _ =>
    bind (load idleTimeout) (fun i =>
    bind (invoke connection (SetIdleTimeout i)) (fun _ =>
    bind (load onPrepare) (fun cb =>
    match cb with
    | Some cb => run cb connection
    | None => ret Background
    end)))))).

(** *** Calls of the factories

    An [Option] is a closure, so which field it writes cannot be read off
    the value.  Options "produced by the factories" are described by the
    factory call that made them. *)
Inductive field : Type := onPrepareField | readTimeoutField | idleTimeoutField.

Inductive factory_call : Type :=
| CallWithOnPrepare (onPrepare' : option OnPrepareFunc)
| CallWithReadTimeout (timeout : Duration)
| CallWithIdleTimeout (timeout : Duration).

Definition make (c : factory_call) : Option :=
  match c with
  | CallWithOnPrepare cb => WithOnPrepare cb
  | CallWithReadTimeout d => WithReadTimeout d
  | CallWithIdleTimeout d => WithIdleTimeout d
  end.

(** The field assigned in the body of the closure the factory returns. *)
Definition target (c : factory_call) : field :=
  match c with
  | CallWithOnPrepare _ => onPrepareField
  | CallWithReadTimeout _ => readTimeoutField
  | CallWithIdleTimeout _ => idleTimeoutField
  end.

(** The content of a field: a possibly nil function or a duration. *)
Inductive value : Type :=
| FuncValue (cb : option OnPrepareFunc)
| DurationValue (d : Duration).

Definition get (fld : field) (op : options) : value :=
  match fld with
  | onPrepareField => FuncValue (onPrepare op)
  | readTimeoutField => DurationValue (readTimeout op)
  | idleTimeoutField => DurationValue (idleTimeout op)
  end.

(** The argument of a factory call, as the content of its target field. *)
Definition argument (c : factory_call) : value :=
  match c with
  | CallWithOnPrepare cb => FuncValue cb
  | CallWithReadTimeout d => DurationValue d
  | CallWithIdleTimeout d => DurationValue d
  end.

Definition targets (fld : field) (c : factory_call) : bool :=
  match fld, target c with
  | onPrepareField, onPrepareField => true
  | readTimeoutField, readTimeoutField => true
  | idleTimeoutField, idleTimeoutField => true
  | _, _ => false
  end.

(** The last factory call of a sequence that writes [fld], if any. *)
Fixpoint last_writer (fld : field) (calls : list factory_call)
    : option factory_call :=
  match calls with
  | [] => None
  | c :: calls' =>
      match last_writer fld calls' with
      | Some c' => Some c'
      | None => if targets fld c then Some c else None
      end
  end.

(** *** Hook invocations running side by side

    The event loop runs the hook once per accepted connection, possibly
    on several pollers at once.  An invocation is cut at its calls: each
    of the three setter calls, and the final branch on [opt.onPrepare],
    is one step.  A schedule interleaves the steps of the invocations. *)
Inductive pc : Type :=
| atSetOnRequest | atSetReadTimeout | atSetIdleTimeout | atOnPrepare
| returned (ctx : context).

Record invocation : Type := Build_invocation {
  handler : OnRequest;
  connection : nat;
  at_pc : pc
}.

Definition start (onRequest : OnRequest) (connection : nat) : invocation :=
  Build_invocation onRequest connection atSetOnRequest.

Definition step (t : invocation) : M invocation :=
  let goto p := Build_invocation (handler t) (connection t) p in
  match at_pc t with
  | atSetOnRequest =>
      bind (invoke (connection t) (SetOnRequest (handler t))) (fun _ =>
      ret (goto atSetReadTimeout))
  | atSetReadTimeout =>
      bind (load readTimeout) (fun r =>
      bind (invoke (connection t) (SetReadTimeout r)) (fun _ =>
      ret (goto atSetIdleTimeout)))
  | atSetIdleTimeout =>
      bind (load idleTimeout) (fun i =>
      bind (invoke (connection t) (SetIdleTimeout i)) (fun _ =>
      ret (goto atOnPrepare)))
  | atOnPrepare =>
      bind (load onPrepare) (fun cb =>
      match cb with
      | Some cb =>
          bind (run cb (connection t)) (fun ctx => ret (goto (returned ctx)))
      | None => ret (goto (returned Background))
      end)
  | returned _ => ret t
  end.

(** One scheduling decision: invocation number [i] takes a step.  A number
    that names no invocation changes nothing. *)
Definition schedule1 (i : nat) (ts : list invocation) : M (list invocation) :=
  match ts !! i with
  | Some t => bind (step t) (fun t' => ret (<[i := t']> ts))
  | None => ret ts
  end.

Fixpoint interleave (schedule : list nat) (ts : list invocation)
    : M (list invocation) :=
  match schedule with
  | [] => ret ts
  | i :: schedule' => bind (schedule1 i ts) (interleave schedule')
  end.

(** The hook run on the connections of a list, one call after another. *)
Fixpoint prepare_each (onRequest : OnRequest) (connections : list nat)
    : M (list context) :=
  match connections with
  | [] => ret []
  | c :: connections' =>
      bind (prepare onRequest c) (fun ctx =>
      bind (prepare_each onRequest connections') (fun ctxs =>
      ret (ctx :: ctxs)))
  end.

Definition is_returned (t : invocation) : bool :=
  match at_pc t with returned _ => true | _ => false end.

(** What the setter calls an invocation has already made leave of a
    connection object [c], with the timeouts [r] and [i] of the options. *)
Definition progress (r i : Duration) (t : invocation) (c : C) : C :=
  match at_pc t with
  | atSetOnRequest => c
  | atSetReadTimeout => SetOnRequest (handler t) c
  | atSetIdleTimeout => SetReadTimeout r (SetOnRequest (handler t) c)
  | atOnPrepare | returned _ =>
      SetIdleTimeout i (SetReadTimeout r (SetOnRequest (handler t) c))
  end.
End WithConnection.
End Netpoll.

Arguments SetNumLoops {engine error} setNumLoops numLoops _.
Arguments SetLoadBalance {engine error LoadBalance} setLoadBalance lb _.
Arguments DisableGopool {engine error} disableGopool _.
Arguments forwards {engine error A} entry op.

Arguments SetOnRequest {OnRequest C _} _ _.
Arguments SetReadTimeout {OnRequest C _} _ _.
Arguments SetIdleTimeout {OnRequest C _} _ _.
Arguments handlerOf {OnRequest C _} _.
Arguments readTimeoutOf {OnRequest C _} _.
Arguments idleTimeoutOf {OnRequest C _} _.
Arguments call {C} connection method conns.
Arguments Build_options {context C} onPrepare readTimeout idleTimeout.
Arguments onPrepare {context C} _.
Arguments readTimeout {context C} _.
Arguments idleTimeout {context C} _.
Arguments Build_Option {context C} f.
Arguments f {context C} _ _.
Arguments WithOnPrepare {context C} onPrepare'.
Arguments WithReadTimeout {context C} timeout.
Arguments WithIdleTimeout {context C} timeout.
Arguments zero {context C}.
Arguments apply_from {context C} start ops.
Arguments resolve {context C} ops.
Arguments Build_World {context C} opts conns.
Arguments opts {context C} _.
Arguments conns {context C} _.
Arguments ret {context C A} a _.
Arguments bind {context C A B} m k _.
Arguments load {context C A} field _.
Arguments invoke {context C} connection method _.
Arguments run {context C} cb connection _.
Arguments prepare {context} Background {OnRequest C _} onRequest connection _.
Arguments CallWithOnPrepare {context C} onPrepare'.
Arguments CallWithReadTimeout {context C} timeout.
Arguments CallWithIdleTimeout {context C} timeout.
Arguments make {context C} c.
Arguments target {context C} c.
Arguments FuncValue {context C} cb.
Arguments DurationValue {context C} d.
Arguments get {context C} fld op.
Arguments argument {context C} c.
Arguments targets {context C} fld c.
Arguments last_writer {context C} fld calls.
Arguments returned {context} ctx.
Arguments atSetOnRequest {context}.
Arguments atSetReadTimeout {context}.
Arguments atSetIdleTimeout {context}.
Arguments atOnPrepare {context}.
Arguments Build_invocation {context OnRequest} handler connection at_pc.
Arguments handler {context OnRequest} _.
Arguments connection {context OnRequest} _.
Arguments at_pc {context OnRequest} _.
Arguments start {context OnRequest} onRequest connection.
Arguments step {context} Background {OnRequest C _} t _.
Arguments schedule1 {context} Background {OnRequest C _} i ts _.
Arguments interleave {context} Background {OnRequest C _} schedule ts _.
Arguments prepare_each {context} Background {OnRequest C _} onRequest connections _.
Arguments is_returned {context OnRequest} t.
Arguments progress {context OnRequest C _} r i t c.

(** A caller's preparation function of the kind the documentation mentions:
    it overrides the read timeout of the connection it is given and returns a
    context of its own. *)
Definition overrideReadTimeout {context OnRequest C : Type} `{!Connection OnRequest C}
    (timeout : Duration) (ctx : context) : OnPrepareFunc context C :=
  fun connection conns => (ctx, call connection (SetReadTimeout timeout) conns).

(** The store of connections once [onRequest] and the timeouts [r] and [i]
    have been installed, in this order, on [connection]. *)
Definition installed {OnRequest C : Type} `{!Connection OnRequest C}
    (onRequest : OnRequest) (r i : Duration) (connection : nat)
    (conns : gmap nat C) : gmap nat C :=
  call connection (SetIdleTimeout i)
    (call connection (SetReadTimeout r)
      (call connection (SetOnRequest onRequest) conns)).

(** [connection] is a live object on which handler and timers read
    [onRequest], [r] and [i]. *)
Definition initialised {OnRequest C : Type} `{!Observable OnRequest C}
    (onRequest : OnRequest) (r i : Duration) (connection : nat)
    (conns : gmap nat C) : Prop :=
  ∃ c : C, conns !! connection = Some c ∧ handlerOf c = Some onRequest ∧
           readTimeoutOf c = r ∧ idleTimeoutOf c = i.

(** A caller's function that touches no connection but the one it is
    given. *)
Definition confined {context C : Type} (cb : OnPrepareFunc context C) : Prop :=
  ∀ (connection c' : nat) (conns : gmap nat C),
    c' ≠ connection → (cb connection conns).2 !! c' = conns !! c'.

(** The number of steps an invocation still has to take. *)
Definition remaining {context OnRequest : Type}
    (t : invocation context OnRequest) : nat :=
  match at_pc t with
  | atSetOnRequest => 4
  | atSetReadTimeout => 3
  | atSetIdleTimeout => 2
  | atOnPrepare => 1
  | returned _ => 0
  end.

(** The invocations [ts], started in the world [w0], have brought it to [w]
    without getting in each other's way: the options are those of [w0], the
    connection of each invocation has received exactly the calls that
    invocation has made so far, an invocation that has returned has returned
    the background context, and no other connection has changed. *)
Definition in_step {context OnRequest C : Type} `{!Connection OnRequest C}
    (Background : context) (w0 : World context C)
    (ts : list (invocation context OnRequest)) (w : World context C) : Prop :=
  opts w = opts w0 ∧
  (∀ (k : nat) (t : invocation context OnRequest), ts !! k = Some t →
     conns w !! connection t =
       progress (readTimeout (opts w0)) (idleTimeout (opts w0)) t
         <$> conns w0 !! connection t ∧
     (∀ ctx, at_pc t = returned ctx → ctx = Background)) ∧
  (∀ c' : nat, c' ∉ connection <$> ts → conns w !! c' = conns w0 !! c').

(** The three factory calls that store, field by field, what [op] holds. *)
Definition calls_of {context C : Type} (op : options context C)
    : list (factory_call context C) :=
  [CallWithOnPrepare (onPrepare op); CallWithReadTimeout (readTimeout op);
   CallWithIdleTimeout (idleTimeout op)].

(** The hook of each handler run on its connection, one call after
    another, in the order of the list. *)
Fixpoint prepare_all {context OnRequest C : Type} `{!Connection OnRequest C}
    (Background : context) (calls : list (OnRequest * nat))
    : M context C (list context) :=
  match calls with
  | [] => ret []
  | (onRequest, connection) :: calls' =>
      bind (prepare Background onRequest connection) (fun ctx =>
      bind (prepare_all Background calls') (fun ctxs =>
      ret (ctx :: ctxs)))
  end.



(** ** Sample collaborators

    Concrete stand-ins for the collaborators this file does not define, on
    which the statements below are exercised. *)
Module Sample.
(** Contexts and handlers are told apart by a name. *)
Definition context : Type := string.
Definition Background : context := "context.Background".
Definition OnRequest : Type := string.

(** Modelled from the spec: a connection object holds the installed request
    handler and the two timers; this one also keeps the list of the calls
    it received, oldest first. *)
Inductive received : Type :=
| GotSetOnRequest (on : OnRequest)
| GotSetReadTimeout (timeout : Duration)
| GotSetIdleTimeout (timeout : Duration).

Record connection : Type := Build_connection {
  onRequestCallback : option OnRequest;
  readTimeout : Duration;
  idleTimeout : Duration;
  calls : list received
}.

Definition fresh : connection := Build_connection None 0%Z 0%Z [].

#[global] Instance connection_Connection : Connection OnRequest connection := {
  SetOnRequest on c :=
    Build_connection (Some on) (readTimeout c) (idleTimeout c)
      (calls c ++ [GotSetOnRequest on]);
  SetReadTimeout timeout c :=
    Build_connection (onRequestCallback c) timeout (idleTimeout c)
      (calls c ++ [GotSetReadTimeout timeout]);
  SetIdleTimeout timeout c :=
    Build_connection (onRequestCallback c) (readTimeout c) timeout
      (calls c ++ [GotSetIdleTimeout timeout])
}.

#[global] Instance connection_Observable : Observable OnRequest connection := {
  handlerOf := onRequestCallback;
  readTimeoutOf := readTimeout;
  idleTimeoutOf := idleTimeout
}.

(** Modelled from the spec: the engine's process-wide tuning state.  The
    poller count must be a positive integer, the load-balancing strategy is
    one of a closed enumeration, and the dispatch pool can be switched
    off. *)
Inductive LoadBalance : Type := Random | RoundRobin.

Record manager : Type := Build_manager {
  NumLoops : Z;
  balance : LoadBalance;
  gopool : bool
}.

Definition setNumLoops (numLoops : Z) (m : manager) : option string * manager :=
  if (numLoops <? 1)%Z
  then (Some "set invalid numLoops", m)
  else (None, Build_manager numLoops (balance m) (gopool m)).

Definition setLoadBalance (lb : LoadBalance) (m : manager) : option string * manager :=
  (None, Build_manager (NumLoops m) lb (gopool m)).

Definition disableGopool (m : manager) : option string * manager :=
  (None, Build_manager (NumLoops m) (balance m) false).

Definition manager0 : manager := Build_manager 1%Z RoundRobin true.

(** A world with the given options and three accepted connections. *)
Definition world (op : options context connection) : World context connection :=
  Build_World op (<[7%nat := fresh]> (<[8%nat := fresh]> (<[9%nat := fresh]> ∅))).
End Sample.

(** * Properties *)

(** ** The option factories and their resolution *)

Section OptionProperties.
Variables (context C : Type).
Implicit Types (op : options context C) (c : factory_call context C).
Implicit Types (calls : list (factory_call context C)) (fld : field).

Lemma options_ext op1 op2 :
  (∀ fld, get fld op1 = get fld op2) → op1 = op2.
Proof.
  intros E. destruct op1 as [cb1 r1 i1], op2 as [cb2 r2 i2].
  pose proof (E onPrepareField) as Ecb.
  pose proof (E readTimeoutField) as Er.
  pose proof (E idleTimeoutField) as Ei.
  simpl in *. congruence.
Qed.

Lemma targets_spec fld c : targets fld c = true ↔ target c = fld.
Proof. destruct fld, c; simpl; split; congruence. Qed.

Lemma targets_false fld c : targets fld c = false ↔ target c ≠ fld.
Proof. destruct fld, c; simpl; split; congruence. Qed.

(** What one factory-made Option does to a field: it stores its argument
    in its target field and copies every other field. *)
Lemma get_make fld c op :
  get fld (f (make c) op) = if targets fld c then argument c else get fld op.
Proof. destruct fld, c; reflexivity. Qed.

Lemma apply_from_cons op (o : Option context C) ops :
  apply_from op (o :: ops) = apply_from (f o op) ops.
Proof. reflexivity. Qed.

Lemma apply_from_app op (ops1 ops2 : list (Option context C)) :
  apply_from op (ops1 ++ ops2) = apply_from (apply_from op ops1) ops2.
Proof. unfold apply_from. apply foldl_app. Qed.

Lemma apply_from_snoc op (o : Option context C) ops :
  apply_from op (ops ++ [o]) = f o (apply_from op ops).
Proof. rewrite apply_from_app. reflexivity. Qed.

(** Every field of the resolved options holds the argument of the last call
    that writes it, or what it held at the start when no call does. *)
Lemma get_apply_from fld calls : ∀ op,
  get fld (apply_from op (make <$> calls)) =
    match last_writer fld calls with
    | Some c => argument c
    | None => get fld op
    end.
Proof.
  induction calls as [|c calls IH]; intros op; [reflexivity|].
  rewrite fmap_cons, apply_from_cons, IH. simpl.
  destruct (last_writer fld calls) as [c'|]; [reflexivity|].
  rewrite get_make. destruct (targets fld c); reflexivity.
Qed.

Lemma last_writer_Some fld calls c :
  last_writer fld calls = Some c → c ∈ calls ∧ target c = fld.
Proof.
  induction calls as [|c0 calls IH]; simpl; [discriminate|].
  destruct (last_writer fld calls) as [c'|].
  - intros [= ->]. destruct IH as [Hin Ht]; [reflexivity|].
    split; [apply elem_of_cons; by right | exact Ht].
  - destruct (targets fld c0) eqn:Et; [|discriminate].
    intros [= ->]. split; [apply elem_of_cons; by left | by apply targets_spec].
Qed.

Lemma last_writer_None fld calls :
  last_writer fld calls = None ↔ ∀ c, c ∈ calls → target c ≠ fld.
Proof.
  induction calls as [|c0 calls IH]; simpl.
  - split; [intros _ c Hc; by apply elem_of_nil in Hc | reflexivity].
  - destruct (last_writer fld calls) as [c'|] eqn:El.
    + split; [discriminate|]. intros H.
      apply last_writer_Some in El as [Hin Ht].
      exfalso. apply (H c'); [apply elem_of_cons; by right | exact Ht].
    + destruct (targets fld c0) eqn:Et.
      * split; [discriminate|]. intros H. exfalso.
        apply (H c0); [apply elem_of_cons; by left | by apply targets_spec].
      * split; [|reflexivity]. intros _ c Hc.
        apply elem_of_cons in Hc as [->|Hc]; [by apply targets_false|].
        by apply IH.
Qed.

(** When the calls write pairwise different fields, the writer of a field
    is the one call of the sequence that targets it. *)
Lemma last_writer_unique calls c :
  NoDup (target <$> calls) → c ∈ calls →
  last_writer (target c) calls = Some c.
Proof.
  induction calls as [|c0 calls IH]; intros Hnd Hc.
  - by apply elem_of_nil in Hc.
  - rewrite fmap_cons in Hnd. apply NoDup_cons in Hnd as [Hnotin Hnd].
    apply elem_of_cons in Hc as [->|Hc]; simpl.
    + assert (last_writer (target c0) calls = None) as ->.
      { apply last_writer_None. intros c' Hc' Ht. apply Hnotin.
        rewrite <- Ht. apply list_elem_of_fmap. by exists c'. }
      assert (targets (target c0) c0 = true) as -> by by apply targets_spec.
      reflexivity.
    + by rewrite IH.
Qed.

(** Two calls that write different fields commute. *)
Lemma make_commute c1 c2 op :
  target c1 ≠ target c2 →
  f (make c1) (f (make c2) op) = f (make c2) (f (make c1) op).
Proof. destruct c1, c2; simpl; intros H; congruence. Qed.

(** With pairwise different target fields, the order of the calls does not
    matter, whatever the options they are applied to. *)
Lemma apply_from_Permutation calls calls' :
  calls' ≡ₚ calls → NoDup (target <$> calls) →
  ∀ op, apply_from op (make <$> calls') = apply_from op (make <$> calls).
Proof.
  induction 1 as [|c l l' Hp IH|c1 c2 l|l1 l2 l3 Hp1 IH1 Hp2 IH2];
    intros Hnd op.
  - reflexivity.
  - rewrite !fmap_cons, !apply_from_cons. apply IH.
    rewrite fmap_cons in Hnd. by apply NoDup_cons in Hnd as [_ ?].
  - rewrite !fmap_cons, !apply_from_cons. f_equal.
    apply make_commute. rewrite !fmap_cons in Hnd.
    apply NoDup_cons in Hnd as [Hnotin _]. intros E. apply Hnotin.
    rewrite E. apply elem_of_cons. by left.
  - rewrite IH1; [by apply IH2|]. by rewrite Hp2.
Qed.

(** C3: for two factory-made Options A and B that write the same field and
    every starting configuration, applying A then B gives the configuration
    that B alone gives; the field holds B's argument, whatever A stored and
    whatever the configuration B is applied to.  In particular
    WithReadTimeout(5s) followed by WithReadTimeout(10s) resolves
    readTimeout to 10s. *)
Theorem last_writer_wins (a b : factory_call context C) op :
  target a = target b →
  f (make b) (f (make a) op) = f (make b) op ∧
  apply_from op [make a; make b] = apply_from op [make b] ∧
  (∀ op', get (target b) (apply_from op [make a; make b]) =
          get (target b) (f (make b) op')) ∧
  get (target b) (apply_from op [make a; make b]) = argument b ∧
  readTimeout (resolve (context := context) (C := C)
    [WithReadTimeout (5 * Second)%Z; WithReadTimeout (10 * Second)%Z])
    = (10 * Second)%Z.
Proof.
  intros Ht.
  assert (f (make b) (f (make a) op) = f (make b) op) as E
    by (destruct a, b; simpl in *; congruence).
  split; [exact E|]. split; [exact E|].
  assert (∀ op', get (target b) (f (make b) op') = argument b) as Eb.
  { intros op'. rewrite get_make.
    by assert (targets (target b) b = true) as -> by by apply targets_spec. }
  split; [|split].
  - intros op'. change (apply_from op [make a; make b])
      with (f (make b) (f (make a) op)). by rewrite !Eb.
  - change (apply_from op [make a; make b])
      with (f (make b) (f (make a) op)). apply Eb.
  - reflexivity.
Qed.

(** C4: for every sequence of Options made by WithOnPrepare,
    WithReadTimeout and WithIdleTimeout that write pairwise different
    fields, resolving the sequence in any order gives the same
    configuration, in which every written field holds what its Option
    alone would have stored and every other field keeps its zero value. *)
Theorem disjoint_fields_order_independent calls :
  NoDup (target <$> calls) →
  (∀ calls', calls' ≡ₚ calls →
     resolve (make <$> calls') = resolve (make <$> calls)) ∧
  (∀ c, c ∈ calls →
     get (target c) (resolve (make <$> calls)) =
     get (target c) (f (make c) zero)) ∧
  (∀ fld, (∀ c, c ∈ calls → target c ≠ fld) →
     get fld (resolve (make <$> calls)) = get fld zero).
Proof.
  intros Hnd. split; [|split].
  - intros calls' Hp. unfold resolve. by apply apply_from_Permutation.
  - intros c Hc. unfold resolve.
    rewrite get_apply_from, (last_writer_unique _ _ Hnd Hc), get_make.
    by assert (targets (target c) c = true) as -> by by apply targets_spec.
  - intros fld Hfld. unfold resolve. rewrite get_apply_from.
    by apply last_writer_None in Hfld as ->.
Qed.





(** C9: applying an Option made by WithOnPrepare, WithReadTimeout or
    WithIdleTimeout stores the argument in its one target field (onPrepare,
    readTimeout, idleTimeout respectively) and leaves the two other fields
    of the configuration as they were. *)
Theorem option_writes_one_field op :
  (∀ cb, onPrepare (f (WithOnPrepare cb) op) = cb ∧
         readTimeout (f (WithOnPrepare cb) op) = readTimeout op ∧
         idleTimeout (f (WithOnPrepare cb) op) = idleTimeout op) ∧
  (∀ d, onPrepare (f (WithReadTimeout d) op) = onPrepare op ∧
        readTimeout (f (WithReadTimeout d) op) = d ∧
        idleTimeout (f (WithReadTimeout d) op) = idleTimeout op) ∧
  (∀ d, onPrepare (f (WithIdleTimeout d) op) = onPrepare op ∧
        readTimeout (f (WithIdleTimeout d) op) = readTimeout op ∧
        idleTimeout (f (WithIdleTimeout d) op) = d) ∧
  (∀ c fld, target c ≠ fld → get fld (f (make c) op) = get fld op).
Proof.
  repeat split.
  intros c fld Hne. rewrite get_make.
  by apply targets_false in Hne as ->.
Qed.

(** C10: applying the same Option made by WithOnPrepare, WithReadTimeout or
    WithIdleTimeout twice in a row gives the configuration that applying it
    once gives. *)
Theorem option_idempotent op :
  (∀ cb, f (WithOnPrepare cb) (f (WithOnPrepare cb) op) =
         f (WithOnPrepare cb) op) ∧
  (∀ d, f (WithReadTimeout d) (f (WithReadTimeout d) op) =
        f (WithReadTimeout d) op) ∧
  (∀ d, f (WithIdleTimeout d) (f (WithIdleTimeout d) op) =
        f (WithIdleTimeout d) op) ∧
  (∀ c ops, apply_from op (ops ++ [make c; make c]) =
            apply_from op (ops ++ [make c])).
Proof.
  repeat split.
  intros c ops. rewrite !apply_from_app. generalize (apply_from op ops).
  intros op'. destruct c; reflexivity.
Qed.
End OptionProperties.

(** ** The tuning entry points *)

Section TuningProperties.
Variables (engine error LoadBalance : Type).
Variable setNumLoops : Z -> engine -> option error * engine.
Variable setLoadBalance : LoadBalance -> engine -> option error * engine.
Variable disableGopool : engine -> option error * engine.

(** C6: whatever the engine operations are, SetNumLoops, SetLoadBalance and
    DisableGopool hand their argument to the engine operation as it is and
    return exactly the operation's result, leaving the engine in the state
    the operation leaves it in: nothing is validated, wrapped or cached.
    With an engine that rejects a poller count below 1, the rejection of
    -1 comes back as the engine made it. *)
Theorem tuning_passthrough :
  (∀ numLoops e, SetNumLoops setNumLoops numLoops e = setNumLoops numLoops e) ∧
  (∀ lb e, SetLoadBalance setLoadBalance lb e = setLoadBalance lb e) ∧
  (∀ e, DisableGopool disableGopool e = disableGopool e) ∧
  forwards (SetNumLoops setNumLoops) setNumLoops ∧
  forwards (SetLoadBalance setLoadBalance) setLoadBalance ∧
  forwards (λ _ : unit, DisableGopool disableGopool) (λ _, disableGopool) ∧
  SetNumLoops Sample.setNumLoops (-1) Sample.manager0 =
    Sample.setNumLoops (-1) Sample.manager0 ∧
  (SetNumLoops Sample.setNumLoops (-1) Sample.manager0).1 =
    Some "set invalid numLoops".
Proof. repeat split. Qed.
End TuningProperties.

(** ** The preparation hook *)

Section HookProperties.
Variables (context : Type) (Background : context) (OnRequest C : Type).
Context `{!Connection OnRequest C}.
Implicit Types (w : World context C) (h : OnRequest) (c : nat).
Implicit Types (cb : OnPrepareFunc context C) (r i : Duration).

(** The hook, with its sequence of calls spelled out. *)
Lemma prepare_eq h c w :
  prepare Background h c w =
    let before :=
      installed h (readTimeout (opts w)) (idleTimeout (opts w)) c (conns w) in
    match onPrepare (opts w) with
    | Some cb => let (ctx, after) := cb c before in
                 (ctx, Build_World (opts w) after)
    | None => (Background, Build_World (opts w) before)
    end.
Proof.
  unfold prepare, bind, invoke, load, run, ret, installed; simpl.
  destruct (onPrepare (opts w)); reflexivity.
Qed.

Lemma prepare_opts h c w : opts (prepare Background h c w).2 = opts w.
Proof.
  rewrite prepare_eq; simpl.
  destruct (onPrepare (opts w)) as [cb|]; [|reflexivity].
  destruct (cb c _); reflexivity.
Qed.

Lemma installed_ne h r i c c' (cs : gmap nat C) :
  c' ≠ c → installed h r i c cs !! c' = cs !! c'.
Proof.
  intros Hne. unfold installed, call.
  by rewrite !lookup_alter_ne by done.
Qed.

Lemma installed_eq h r i c (cs : gmap nat C) :
  installed h r i c cs !! c =
    (λ x : C, SetIdleTimeout i (SetReadTimeout r (SetOnRequest h x))) <$> cs !! c.
Proof.
  unfold installed, call. rewrite !lookup_alter_eq.
  by destruct (cs !! c).
Qed.

Section Lawful.
Context `{!Observable OnRequest C, !ConnectionSpec OnRequest C}.

Lemma installed_initialised h r i c (cs : gmap nat C) :
  is_Some (cs !! c) → initialised h r i c (installed h r i c cs).
Proof.
  intros [x Hx]. unfold initialised. rewrite installed_eq, Hx. simpl.
  eexists; split; [reflexivity|]. split; [|split].
  - by rewrite handler_SetIdleTimeout, handler_SetReadTimeout,
      handler_SetOnRequest.
  - by rewrite read_SetIdleTimeout, read_SetReadTimeout.
  - by rewrite idle_SetIdleTimeout.
Qed.

Lemma override_initialised h r i t c (cs : gmap nat C) :
  initialised h r i c cs →
  initialised h t i c (call c (SetReadTimeout t) cs).
Proof.
  intros (x & Hx & Hh & _ & Hi). unfold initialised, call.
  rewrite lookup_alter_eq, Hx. simpl.
  eexists; split; [reflexivity|]. split; [|split].
  - by rewrite handler_SetReadTimeout.
  - by rewrite read_SetReadTimeout.
  - by rewrite idle_SetReadTimeout.
Qed.

(** C1: in a world whose options hold readTimeout r, idleTimeout i and no
    preparation callback, the hook made by prepare(h), run on a
    connection, returns the background context and leaves the options and
    every other connection alone; on the connection it has called
    SetOnRequest(h), SetReadTimeout(r) and SetIdleTimeout(i), so that the
    connection's handler is h, its read timeout r and its idle timeout
    i. *)
Theorem prepare_without_callback w h c r i :
  readTimeout (opts w) = r → idleTimeout (opts w) = i →
  onPrepare (opts w) = None →
  prepare Background h c w =
    (Background, Build_World (opts w) (installed h r i c (conns w))) ∧
  (is_Some (conns w !! c) →
   initialised h r i c (conns (prepare Background h c w).2)).
Proof.
  intros <- <- Hcb.
  assert (prepare Background h c w =
    (Background, Build_World (opts w)
       (installed h (readTimeout (opts w)) (idleTimeout (opts w)) c (conns w))))
    as E by (rewrite prepare_eq, Hcb; reflexivity).
  split; [exact E|].
  intros Hlive. rewrite E; simpl. by apply installed_initialised.
Qed.

(** C2: in a world whose options hold readTimeout r, idleTimeout i and a
    preparation callback cb, the hook made by prepare(h) calls cb on a
    store in which the handler h and the timeouts r and i are already
    installed on the connection, and returns exactly what cb returns, the
    connections being left as cb leaves them.  Hence when cb overrides
    the read timeout with t and returns ctx, the hook returns ctx and the
    connection ends with read timeout t, handler h and idle timeout i. *)
Theorem prepare_with_callback w h c r i cb :
  readTimeout (opts w) = r → idleTimeout (opts w) = i →
  onPrepare (opts w) = Some cb →
  let before := installed h r i c (conns w) in
  (prepare Background h c w).1 = (cb c before).1 ∧
  conns (prepare Background h c w).2 = (cb c before).2 ∧
  opts (prepare Background h c w).2 = opts w ∧
  (is_Some (conns w !! c) → initialised h r i c before) ∧
  (∀ t ctx, cb = overrideReadTimeout t ctx → is_Some (conns w !! c) →
     (prepare Background h c w).1 = ctx ∧
     initialised h t i c (conns (prepare Background h c w).2)).
Proof.
  intros <- <- Hcb before.
  assert (prepare Background h c w =
            ((cb c before).1, Build_World (opts w) (cb c before).2)) as E.
  { rewrite prepare_eq, Hcb. simpl. fold before.
    by destruct (cb c before). }
  rewrite E; simpl. repeat split.
  - by apply installed_initialised.
  - by subst cb.
  - subst cb; simpl. eapply override_initialised.
    by apply installed_initialised.
Qed.

(** C8: when the options were resolved with WithOnPrepare(nil) and no
    later Option writes onPrepare, they are the options obtained without
    any preparation callback, and the hook made by prepare(h) does not
    call the nil function: it installs the handler and both timeouts and
    returns the background context. *)
Theorem prepare_with_nil_callback (op0 : options context C)
    (calls : list (factory_call context C)) h c (cs : gmap nat C) :
  (∀ x, x ∈ calls → target x ≠ onPrepareField) →
  let op := apply_from op0 (make <$> (CallWithOnPrepare None :: calls)) in
  let never :=
    apply_from (Build_options None (readTimeout op0) (idleTimeout op0))
      (make <$> calls) in
  op = never ∧
  resolve (make <$> (CallWithOnPrepare None :: calls)) =
    resolve (make <$> calls) ∧
  onPrepare op = None ∧
  prepare Background h c (Build_World op cs) =
    (Background,
     Build_World op (installed h (readTimeout op) (idleTimeout op) c cs)) ∧
  (is_Some (cs !! c) →
   initialised h (readTimeout op) (idleTimeout op) c
     (conns (prepare Background h c (Build_World op cs)).2)).
Proof.
  intros Hlater op never.
  assert (onPrepare op = None) as Hnil.
  { assert (get onPrepareField op = FuncValue None) as E.
    { unfold op. rewrite get_apply_from. simpl.
      by apply last_writer_None in Hlater as ->. }
    simpl in E. congruence. }
  assert (prepare Background h c (Build_World op cs) =
    (Background,
     Build_World op (installed h (readTimeout op) (idleTimeout op) c cs)))
    as E by (rewrite prepare_eq; simpl; rewrite Hnil; reflexivity).
  repeat split; try done.
  intros Hlive. rewrite E; simpl. by apply installed_initialised.
Qed.
End Lawful.

(** *** The hook never writes the options *)

Lemma bind_opts {A B : Type} (m : M context C A) (k : A → M context C B) w :
  (∀ w', opts (m w').2 = opts w') →
  (∀ a w', opts (k a w').2 = opts w') →
  opts (bind m k w).2 = opts w.
Proof.
  intros Hm Hk. unfold bind. specialize (Hm w).
  destruct (m w) as [a w']; simpl in Hm. by rewrite Hk.
Qed.

Lemma step_opts (t : invocation context OnRequest) w :
  opts (step Background t w).2 = opts w.
Proof.
  unfold step. destruct (at_pc t); try reflexivity.
  unfold bind, load, run, ret.
  destruct (onPrepare (opts w)) as [cb|]; [|reflexivity].
  by destruct (cb _ _).
Qed.

Lemma schedule1_opts k (ts : list (invocation context OnRequest)) w :
  opts (schedule1 Background k ts w).2 = opts w.
Proof.
  unfold schedule1. destruct (ts !! k) as [t|]; [|reflexivity].
  apply bind_opts; [apply step_opts | reflexivity].
Qed.

Lemma interleave_opts schedule :
  ∀ (ts : list (invocation context OnRequest)) w,
    opts (interleave Background schedule ts w).2 = opts w.
Proof.
  induction schedule as [|k schedule IH]; intros ts w; [reflexivity|].
  simpl. apply bind_opts; [apply schedule1_opts | intros; apply IH].
Qed.

Lemma prepare_each_opts h (cs : list nat) :
  ∀ w, opts (prepare_each Background h cs w).2 = opts w.
Proof.
  induction cs as [|c cs IH]; intros w; [reflexivity|].
  simpl. apply bind_opts; [intros; apply prepare_opts|].
  intros ctx w'. apply bind_opts; [apply IH | reflexivity].
Qed.

(** The four steps of an invocation, taken without interruption, are one
    run of the hook. *)
Lemma steps_prepare h c w :
  bind (step Background (start h c)) (λ t1,
  bind (step Background t1) (λ t2,
  bind (step Background t2) (step Background))) w =
    (Build_invocation h c (returned (prepare Background h c w).1),
     (prepare Background h c w).2).
Proof.
  rewrite prepare_eq.
  unfold step, start, bind, invoke, load, run, ret, installed; simpl.
  destruct (onPrepare (opts w)) as [cb|]; [|reflexivity].
  by destruct (cb c _).
Qed.

Lemma interleave_alone h c w :
  interleave Background [0; 0; 0; 0]%nat [start h c] w =
    ([Build_invocation h c (returned (prepare Background h c w).1)],
     (prepare Background h c w).2).
Proof.
  rewrite prepare_eq.
  unfold interleave, schedule1, step, start, bind, invoke, load, run, ret,
    installed; simpl.
  destruct (onPrepare (opts w)) as [cb|]; [|reflexivity].
  by destruct (cb c _).
Qed.

(** C7: the hook made by prepare leaves the options (onPrepare,
    readTimeout, idleTimeout) as they are, whatever the handler, the
    connection and the configured callback: after one invocation, after
    any number of invocations in a row, and after any interleaving of the
    steps of any number of invocations.  Of the connections it changes the
    one it is given, and what a configured callback changes. *)
Theorem prepare_preserves_options :
  (∀ w h c, opts (prepare Background h c w).2 = opts w) ∧
  (∀ w h (cs : list nat), opts (prepare_each Background h cs w).2 = opts w) ∧
  (∀ schedule (ts : list (invocation context OnRequest)) w,
     opts (interleave Background schedule ts w).2 = opts w) ∧
  (∀ w h c c',
     (∀ cb, onPrepare (opts w) = Some cb → confined cb) → c' ≠ c →
     conns (prepare Background h c w).2 !! c' = conns w !! c').
Proof.
  split; [|split; [|split]].
  - intros. apply prepare_opts.
  - intros. apply prepare_each_opts.
  - intros. apply interleave_opts.
  - intros w h c c' Hcb Hne. rewrite prepare_eq; simpl.
    destruct (onPrepare (opts w)) as [cb|].
    + specialize (Hcb cb eq_refl c c' (installed h (readTimeout (opts w))
        (idleTimeout (opts w)) c (conns w)) Hne).
      destruct (cb c _) as [ctx after]; simpl in *.
      by rewrite Hcb, installed_ne.
    + simpl. by apply installed_ne.
Qed.

(** *** Invocations on distinct connections do not interfere *)

Implicit Types (t : invocation context OnRequest).
Implicit Types (ts : list (invocation context OnRequest)).

Lemma schedule1_eq k ts w :
  schedule1 Background k ts w =
    match ts !! k with
    | Some t => (<[k := (step Background t w).1]> ts, (step Background t w).2)
    | None => (ts, w)
    end.
Proof.
  unfold schedule1. destruct (ts !! k) as [t|]; [|reflexivity].
  unfold bind, ret. by destruct (step Background t w).
Qed.

Lemma interleave_cons k schedule ts w :
  interleave Background (k :: schedule) ts w =
    interleave Background schedule
      (schedule1 Background k ts w).1 (schedule1 Background k ts w).2.
Proof. simpl. unfold bind. by destruct (schedule1 Background k ts w). Qed.

Lemma step_same t w :
  handler (step Background t w).1 = handler t ∧
  connection (step Background t w).1 = connection t.
Proof.
  unfold step. destruct (at_pc t); try done.
  unfold bind, load, run, ret.
  destruct (onPrepare (opts w)) as [cb|]; [|done]. by destruct (cb _ _).
Qed.

Lemma step_remaining t w :
  remaining (step Background t w).1 = pred (remaining t).
Proof.
  unfold step, remaining. destruct (at_pc t) eqn:E; simpl; try done.
  - unfold bind, load, run, ret.
    destruct (onPrepare (opts w)) as [cb|]; [|done]. by destruct (cb _ _).
  - by rewrite E.
Qed.

(** Without a callback, a step is one setter call on the invocation's own
    connection, or no call at all. *)
Lemma step_quiet t w :
  onPrepare (opts w) = None →
  ∃ m : C → C,
    conns (step Background t w).2 = alter m (connection t) (conns w) ∧
    (∀ x : C,
       progress (readTimeout (opts w)) (idleTimeout (opts w))
         (step Background t w).1 x =
       m (progress (readTimeout (opts w)) (idleTimeout (opts w)) t x)) ∧
    ((∀ ctx, at_pc t = returned ctx → ctx = Background) →
     ∀ ctx, at_pc (step Background t w).1 = returned ctx → ctx = Background).
Proof.
  intros Hnil. unfold step, progress.
  destruct (at_pc t) as [| | | |ctx0] eqn:E; simpl.
  - exists (SetOnRequest (handler t)). by repeat split.
  - exists (SetReadTimeout (readTimeout (opts w))). by repeat split.
  - exists (SetIdleTimeout (idleTimeout (opts w))). by repeat split.
  - exists id. unfold bind, load, ret. rewrite Hnil. simpl.
    repeat split; [by rewrite alter_id | congruence].
  - exists id. unfold ret. simpl. rewrite E.
    repeat split; [by rewrite alter_id | done].
Qed.

Lemma schedule1_same k ts w :
  handler <$> (schedule1 Background k ts w).1 = handler <$> ts ∧
  connection <$> (schedule1 Background k ts w).1 = connection <$> ts.
Proof.
  rewrite schedule1_eq. destruct (ts !! k) as [t|] eqn:Ek; [|done]. simpl.
  destruct (step_same t w) as [Hh Hc].
  rewrite !list_fmap_insert, Hh, Hc.
  split; apply list_insert_id; by rewrite list_lookup_fmap, Ek.
Qed.

Lemma schedule1_in_step w0 k ts w :
  onPrepare (opts w0) = None → NoDup (connection <$> ts) →
  in_step Background w0 ts w →
  in_step Background w0
    (schedule1 Background k ts w).1 (schedule1 Background k ts w).2.
Proof.
  intros Hnil Hnd (Hopts & Hts & Hothers).
  rewrite schedule1_eq. destruct (ts !! k) as [t|] eqn:Ek; [|done]. simpl.
  destruct (step_quiet t w) as (m & Hm & Hprog & Hret); [by rewrite Hopts|].
  destruct (step_same t w) as [_ Hc].
  rewrite Hopts in Hprog.
  split; [by rewrite step_opts|]. split.
  - intros j tj Hj. rewrite Hm.
    destruct (decide (j = k)) as [->|Hjk].
    + rewrite list_lookup_insert_eq in Hj by by eapply lookup_lt_Some.
      injection Hj as <-. rewrite Hc, lookup_alter_eq.
      destruct (Hts k t Ek) as [-> Hbg]. split; [|by apply Hret].
      destruct (conns w0 !! connection t); simpl; [|done].
      by rewrite Hprog.
    + rewrite list_lookup_insert_ne in Hj by done.
      destruct (Hts j tj Hj) as [Hcj Hbg]. split; [|done].
      rewrite lookup_alter_ne; [done|].
      intros Heq. apply Hjk. symmetry.
      eapply (NoDup_lookup _ _ _ _ Hnd);
        rewrite list_lookup_fmap; [by rewrite Ek | by rewrite Hj, Heq].
  - intros c' Hc'. rewrite Hm.
    assert (connection <$> <[k := (step Background t w).1]> ts
            = connection <$> ts) as Esame.
    { pose proof (schedule1_same k ts w) as [_ E].
      by rewrite schedule1_eq, Ek in E. }
    rewrite Esame in Hc'.
    rewrite lookup_alter_ne; [by apply Hothers|].
    intros <-. apply Hc'. apply list_elem_of_fmap.
    exists t. split; [done|]. by eapply list_elem_of_lookup_2.
Qed.

Lemma interleave_in_step w0 schedule :
  onPrepare (opts w0) = None →
  ∀ ts w, NoDup (connection <$> ts) → in_step Background w0 ts w →
    in_step Background w0
      (interleave Background schedule ts w).1
      (interleave Background schedule ts w).2 ∧
    handler <$> (interleave Background schedule ts w).1 = handler <$> ts ∧
    connection <$> (interleave Background schedule ts w).1 = connection <$> ts.
Proof.
  intros Hnil. induction schedule as [|k schedule IH]; intros ts w Hnd Hin.
  - done.
  - rewrite interleave_cons.
    destruct (schedule1_same k ts w) as [Hh Hc].
    destruct (IH (schedule1 Background k ts w).1 (schedule1 Background k ts w).2)
      as (Hin' & Hh' & Hc').
    + by rewrite Hc.
    + by apply schedule1_in_step.
    + by rewrite Hh', Hc', Hh, Hc.
Qed.

(** Every scheduling decision for invocation [k] brings it one step closer
    to its return, and a schedule naming it four times takes it there. *)
Lemma interleave_remaining schedule : ∀ ts w k t,
  ts !! k = Some t →
  ∃ t', (interleave Background schedule ts w).1 !! k = Some t' ∧
        remaining t' = (remaining t - length (filter (k =.) schedule))%nat.
Proof.
  induction schedule as [|j schedule IH]; intros ts w k t Hk.
  - exists t. split; [done|]. simpl. lia.
  - rewrite interleave_cons, schedule1_eq.
    destruct (ts !! j) as [tj|] eqn:Ej; simpl.
    + destruct (decide (k = j)) as [->|Hkj].
      * rewrite filter_cons_True by done. simpl.
        destruct (IH (<[j := (step Background tj w).1]> ts)
                    (step Background tj w).2 j (step Background tj w).1)
          as (t' & Ht' & Hrem).
        { apply list_lookup_insert_eq. by eapply lookup_lt_Some. }
        exists t'. split; [done|]. rewrite Hrem, step_remaining.
        assert (tj = t) as -> by congruence. lia.
      * rewrite filter_cons_False by done.
        apply IH. by rewrite list_lookup_insert_ne.
    + destruct (decide (k = j)) as [->|Hkj]; [congruence|].
      rewrite filter_cons_False by done. by apply IH.
Qed.

(** What a fair schedule leaves behind when no callback is configured. *)
Lemma interleave_fair schedule (calls : list (OnRequest * nat)) w0 :
  onPrepare (opts w0) = None → NoDup calls.*2 →
  (∀ k, (k < length calls)%nat → (4 ≤ length (filter (k =.) schedule))%nat) →
  let out :=
    interleave Background schedule ((λ p, start p.1 p.2) <$> calls) w0 in
  in_step Background w0 out.1 out.2 ∧
  out.1 = (λ p, Build_invocation p.1 p.2 (returned Background)) <$> calls.
Proof.
  intros Hnil Hnd Hfair out.
  set (ts0 := (λ p : OnRequest * nat, start p.1 p.2) <$> calls) in *.
  assert (connection <$> ts0 = calls.*2) as Ec0.
  { unfold ts0. rewrite <- list_fmap_compose. by apply list_fmap_ext. }
  assert (handler <$> ts0 = calls.*1) as Eh0.
  { unfold ts0. rewrite <- list_fmap_compose. by apply list_fmap_ext. }
  destruct (interleave_in_step w0 schedule Hnil ts0 w0)
    as (Hin & Hh & Hc).
  { by rewrite Ec0. }
  { split; [done|]. split; [|done]. intros k t Hk.
    unfold ts0 in Hk. rewrite list_lookup_fmap in Hk.
    destruct (calls !! k) as [[h c]|]; [|done]. injection Hk as <-.
    unfold progress; simpl. split; [|done].
    by destruct (conns w0 !! c). }
  fold out in Hin, Hh, Hc. split; [exact Hin|].
  destruct Hin as (_ & Hts & _).
  apply list_eq. intros k. rewrite list_lookup_fmap.
  destruct (calls !! k) as [[h c]|] eqn:Ek; simpl.
  - destruct (interleave_remaining schedule ts0 w0 k (start h c))
      as (t' & Ht' & Hrem).
    { unfold ts0. by rewrite list_lookup_fmap, Ek. }
    fold out in Ht'. rewrite Ht'. f_equal.
    assert (handler t' = h) as Hh'.
    { assert ((handler <$> out.1) !! k = Some h) as E
        by by rewrite Hh, Eh0, list_lookup_fmap, Ek.
      rewrite list_lookup_fmap, Ht' in E. by injection E. }
    assert (connection t' = c) as Hc'.
    { assert ((connection <$> out.1) !! k = Some c) as E
        by by rewrite Hc, Ec0, list_lookup_fmap, Ek.
      rewrite list_lookup_fmap, Ht' in E. by injection E. }
    assert (k < length calls)%nat as Hlt by by eapply lookup_lt_Some.
    specialize (Hfair k Hlt).
    destruct (Hts k t' Ht') as [_ Hbg].
    destruct t' as [h' c' p]; simpl in *. subst h' c'.
    unfold remaining in Hrem; simpl in Hrem.
    destruct p as [| | | |ctx]; simpl in Hrem; try lia.
    by rewrite (Hbg ctx eq_refl).
  - apply lookup_ge_None. apply lookup_ge_None in Ek.
    assert (length out.1 = length calls) as ->; [|done].
    by rewrite <- (length_fmap handler out.1), Hh, Eh0, length_fmap.
Qed.

(** Hook invocations on pairwise distinct connections, with no callback
    configured, interleaved in any way that lets each of them take its four
    steps: each returns the background context, each connection ends as a
    run of the hook alone would leave it, and nothing else changes. *)
Theorem interleave_independent schedule (calls : list (OnRequest * nat)) w0 :
  onPrepare (opts w0) = None → NoDup calls.*2 →
  (∀ k, (k < length calls)%nat → (4 ≤ length (filter (k =.) schedule))%nat) →
  let out :=
    interleave Background schedule ((λ p, start p.1 p.2) <$> calls) w0 in
  opts out.2 = opts w0 ∧
  out.1 = (λ p, Build_invocation p.1 p.2 (returned Background)) <$> calls ∧
  (∀ h c, (h, c) ∈ calls →
     conns out.2 !! c =
       installed h (readTimeout (opts w0)) (idleTimeout (opts w0)) c (conns w0)
         !! c) ∧
  (∀ c', c' ∉ calls.*2 → conns out.2 !! c' = conns w0 !! c').
Proof.
  intros Hnil Hnd Hfair out.
  destruct (interleave_fair schedule calls w0 Hnil Hnd Hfair)
    as ((Hopts & Hts & Hothers) & Hout).
  fold out in Hopts, Hts, Hothers, Hout.
  split; [done|]. split; [done|]. split.
  - intros h c Hin. apply list_elem_of_lookup in Hin as [k Hk].
    destruct (Hts k (Build_invocation h c (returned Background))) as [E _].
    { by rewrite Hout, list_lookup_fmap, Hk. }
    simpl in E. by rewrite E, installed_eq.
  - intros c' Hc'. apply Hothers. rewrite Hout, <- list_fmap_compose.
    exact Hc'.
Qed.
End HookProperties.

(** * The statements at work on the sample collaborators *)

Lemma sample_connection_spec :
  ConnectionSpec Sample.OnRequest Sample.connection.
Proof. by split. Qed.

Example prepare_sample_defaults :
  let op := Build_options None (5 * Second)%Z (30 * Second)%Z in
  let out := prepare Sample.Background "handler" 7 (Sample.world op) in
  out.1 = Sample.Background ∧ opts out.2 = op ∧
  conns out.2 !! 7%nat =
    Some (Sample.Build_connection (Some "handler") (5 * Second)%Z (30 * Second)%Z
            [Sample.GotSetOnRequest "handler";
             Sample.GotSetReadTimeout (5 * Second)%Z;
             Sample.GotSetIdleTimeout (30 * Second)%Z]) ∧
  conns out.2 !! 8%nat = Some Sample.fresh ∧
  conns out.2 !! 9%nat = Some Sample.fresh.
Proof. vm_compute. repeat split. Qed.

Example prepare_sample_override :
  let cb := overrideReadTimeout (1 * Second)%Z "ctx42" in
  let op := Build_options (Some cb) (5 * Second)%Z (30 * Second)%Z in
  let out := prepare Sample.Background "handler" 7 (Sample.world op) in
  out.1 = "ctx42" ∧ opts out.2 = op ∧
  conns out.2 !! 7%nat =
    Some (Sample.Build_connection (Some "handler") (1 * Second)%Z (30 * Second)%Z
            [Sample.GotSetOnRequest "handler";
             Sample.GotSetReadTimeout (5 * Second)%Z;
             Sample.GotSetIdleTimeout (30 * Second)%Z;
             Sample.GotSetReadTimeout (1 * Second)%Z]).
Proof. vm_compute. repeat split. Qed.

Example resolve_sample :
  resolve (context := Sample.context) (C := Sample.connection)
    [WithIdleTimeout (30 * Second)%Z; WithReadTimeout (5 * Second)%Z;
     WithOnPrepare None; WithReadTimeout (10 * Second)%Z]
  = Build_options None (10 * Second)%Z (30 * Second)%Z.
Proof. reflexivity. Qed.

Example tuning_sample :
  SetNumLoops Sample.setNumLoops 4 Sample.manager0 =
    (None, Sample.Build_manager 4 Sample.RoundRobin true) ∧
  SetNumLoops Sample.setNumLoops 0 Sample.manager0 =
    (Some "set invalid numLoops", Sample.manager0) ∧
  SetLoadBalance Sample.setLoadBalance Sample.Random Sample.manager0 =
    (None, Sample.Build_manager 1 Sample.Random true) ∧
  DisableGopool Sample.disableGopool Sample.manager0 =
    (None, Sample.Build_manager 1 Sample.RoundRobin false).
Proof. repeat split. Qed.

Example interleave_sample :
  let op := Build_options None (5 * Second)%Z (30 * Second)%Z in
  let out :=
    interleave Sample.Background [0; 1; 1; 0; 1; 0; 0; 1]%nat
      [start "h7" 7%nat; start "h9" 9%nat] (Sample.world op) in
  out.1 = [Build_invocation "h7" 7%nat (returned Sample.Background);
           Build_invocation "h9" 9%nat (returned Sample.Background)] ∧
  opts out.2 = op ∧
  Sample.onRequestCallback <$> conns out.2 !! 7%nat = Some (Some "h7") ∧
  Sample.onRequestCallback <$> conns out.2 !! 9%nat = Some (Some "h9") ∧
  conns out.2 !! 8%nat = Some Sample.fresh.
Proof. vm_compute. repeat split. Qed.

(** ** Witnesses *)

Lemma prepare_without_callback_witness :
  let op : options Sample.context Sample.connection :=
    Build_options None (5 * Second)%Z (30 * Second)%Z in
  let w := Sample.world op in
  readTimeout (opts w) = (5 * Second)%Z ∧
  idleTimeout (opts w) = (30 * Second)%Z ∧
  onPrepare (opts w) = None ∧
  (prepare Sample.Background "handler" 7 w =
     (Sample.Background,
      Build_World (opts w)
        (installed "handler" (5 * Second)%Z (30 * Second)%Z 7 (conns w))) ∧
   (is_Some (conns w !! 7%nat) →
    initialised "handler" (5 * Second)%Z (30 * Second)%Z 7
      (conns (prepare Sample.Background "handler" 7 w).2))).
Proof.
  intros op w.
  split; [reflexivity|]. split; [reflexivity|]. split; [reflexivity|].
  apply (prepare_without_callback Sample.context Sample.Background
           Sample.OnRequest Sample.connection (ConnectionSpec0 := sample_connection_spec));
    reflexivity.
Defined.

Lemma prepare_with_callback_witness :
  let cb : OnPrepareFunc Sample.context Sample.connection :=
    overrideReadTimeout (1 * Second)%Z "ctx42" in
  let op := Build_options (Some cb) (5 * Second)%Z (30 * Second)%Z in
  let w := Sample.world op in
  let out := prepare Sample.Background "handler" 7 w in
  readTimeout (opts w) = (5 * Second)%Z ∧
  idleTimeout (opts w) = (30 * Second)%Z ∧
  onPrepare (opts w) = Some cb ∧
  (let before := installed "handler" (5 * Second)%Z (30 * Second)%Z 7 (conns w) in
   out.1 = (cb 7%nat before).1 ∧
   conns out.2 = (cb 7%nat before).2 ∧
   opts out.2 = opts w ∧
   (is_Some (conns w !! 7%nat) →
    initialised "handler" (5 * Second)%Z (30 * Second)%Z 7 before) ∧
   (∀ t ctx, cb = overrideReadTimeout t ctx → is_Some (conns w !! 7%nat) →
      out.1 = ctx ∧ initialised "handler" t (30 * Second)%Z 7 (conns out.2))).
Proof.
  intros cb op w out.
  split; [reflexivity|]. split; [reflexivity|]. split; [reflexivity|].
  apply (prepare_with_callback Sample.context Sample.Background
           Sample.OnRequest Sample.connection (ConnectionSpec0 := sample_connection_spec));
    reflexivity.
Defined.

Lemma last_writer_wins_witness :
  let a : factory_call Sample.context Sample.connection :=
    CallWithReadTimeout (5 * Second)%Z in
  let b : factory_call Sample.context Sample.connection :=
    CallWithReadTimeout (10 * Second)%Z in
  target a = target b ∧
  (f (make b) (f (make a) zero) = f (make b) zero ∧
   apply_from zero [make a; make b] = apply_from zero [make b] ∧
   (∀ op', get (target b) (apply_from zero [make a; make b]) =
           get (target b) (f (make b) op')) ∧
   get (target b) (apply_from zero [make a; make b]) = argument b ∧
   readTimeout (resolve (context := Sample.context) (C := Sample.connection)
     [WithReadTimeout (5 * Second)%Z; WithReadTimeout (10 * Second)%Z])
     = (10 * Second)%Z).
Proof.
  intros a b. split; [reflexivity|].
  apply (last_writer_wins Sample.context Sample.connection a b zero).
  reflexivity.
Defined.

Lemma disjoint_fields_order_independent_witness :
  let calls : list (factory_call Sample.context Sample.connection) :=
    [CallWithIdleTimeout (30 * Second)%Z; CallWithOnPrepare None;
     CallWithReadTimeout (5 * Second)%Z] in
  NoDup (target <$> calls) ∧
  ((∀ calls', calls' ≡ₚ calls →
      resolve (make <$> calls') = resolve (make <$> calls)) ∧
   (∀ c, c ∈ calls →
      get (target c) (resolve (make <$> calls)) =
      get (target c) (f (make c) zero)) ∧
   (∀ fld, (∀ c, c ∈ calls → target c ≠ fld) →
      get fld (resolve (make <$> calls)) = get fld zero)).
Proof.
  intros calls.
  assert (NoDup (target <$> calls)) as Hnd.
  { simpl. repeat (apply NoDup_cons_2 || apply NoDup_nil_2);
      rewrite ?elem_of_cons, ?elem_of_nil; intuition discriminate. }
  split; [exact Hnd|].
  apply (disjoint_fields_order_independent Sample.context Sample.connection
           calls Hnd).
Defined.

Lemma prepare_with_nil_callback_witness :
  let cb : OnPrepareFunc Sample.context Sample.connection :=
    overrideReadTimeout (1 * Second)%Z "ctx42" in
  let op0 := Build_options (Some cb) (5 * Second)%Z (30 * Second)%Z in
  let calls : list (factory_call Sample.context Sample.connection) :=
    [CallWithIdleTimeout (10 * Second)%Z] in
  let cs := conns (Sample.world op0) in
  (∀ x, x ∈ calls → target x ≠ onPrepareField) ∧
  (let op := apply_from op0 (make <$> (CallWithOnPrepare None :: calls)) in
   let never :=
     apply_from (Build_options None (readTimeout op0) (idleTimeout op0))
       (make <$> calls) in
   op = never ∧
   resolve (make <$> (CallWithOnPrepare None :: calls)) =
     resolve (make <$> calls) ∧
   onPrepare op = None ∧
   prepare Sample.Background "handler" 7 (Build_World op cs) =
     (Sample.Background,
      Build_World op
        (installed "handler" (readTimeout op) (idleTimeout op) 7 cs)) ∧
   (is_Some (cs !! 7%nat) →
    initialised "handler" (readTimeout op) (idleTimeout op) 7
      (conns (prepare Sample.Background "handler" 7 (Build_World op cs)).2))).
Proof.
  intros cb op0 calls cs.
  assert (∀ x, x ∈ calls → target x ≠ onPrepareField) as Hlater.
  { intros x Hx. apply elem_of_cons in Hx as [->|Hx]; [discriminate|].
    by apply elem_of_nil in Hx. }
  split; [exact Hlater|].
  apply (prepare_with_nil_callback Sample.context Sample.Background
           Sample.OnRequest Sample.connection
           (ConnectionSpec0 := sample_connection_spec) op0 calls "handler" 7 cs Hlater).
Defined.

(** * Further properties *)

(** ** Sequences of Options *)

Section OptionSequences.
Variables (context C : Type).
Implicit Types (op : options context C) (c : factory_call context C).
Implicit Types (calls : list (factory_call context C)) (fld : field).

Lemma last_writer_app fld calls1 calls2 :
  last_writer fld (calls1 ++ calls2) =
    match last_writer fld calls2 with
    | Some c => Some c
    | None => last_writer fld calls1
    end.
Proof.
  induction calls1 as [|c calls1 IH]; simpl.
  - by destruct (last_writer fld calls2).
  - rewrite IH. by destruct (last_writer fld calls2).
Qed.

Lemma calls_of_NoDup op : NoDup (target <$> calls_of op).
Proof.
  unfold calls_of; simpl.
  repeat (apply NoDup_cons_2 || apply NoDup_nil_2);
    rewrite ?elem_of_cons, ?elem_of_nil; intuition discriminate.
Qed.

(** The factories can rebuild any options value: applying WithOnPrepare,
    WithReadTimeout and WithIdleTimeout with the three fields of [op], in any
    order and to any starting value, gives [op] back. *)
Theorem factories_rebuild op start calls :
  calls ≡ₚ calls_of op → apply_from start (make <$> calls) = op.
Proof.
  intros Hp.
  rewrite (apply_from_Permutation context C (calls_of op) calls Hp
             (calls_of_NoDup op) start).
  by destruct op.
Qed.

(** Defaults first, overrides after: with the Options [defaults] applied
    before the Options [user], a field holds what [user] stores in it, and
    what [defaults] resolve to where [user] is silent. *)
Theorem defaults_then_overrides start (defaults user : list (factory_call context C)) fld :
  get fld (apply_from start (make <$> (defaults ++ user))) =
    match last_writer fld user with
    | Some c => argument c
    | None => get fld (apply_from start (make <$> defaults))
    end.
Proof.
  rewrite fmap_app, apply_from_app, get_apply_from.
  reflexivity.
Qed.

(** An Option is dead as soon as a later Option of the sequence writes the
    same field, whatever stands between the two: dropping it does not change
    the resolved options. *)
Theorem overwritten_option_dead start calls1 c calls2 :
  (∃ c', c' ∈ calls2 ∧ target c' = target c) →
  apply_from start (make <$> (calls1 ++ c :: calls2)) =
  apply_from start (make <$> (calls1 ++ calls2)).
Proof.
  intros (c' & Hin & Ht). apply options_ext. intros fld.
  rewrite !get_apply_from, !last_writer_app. simpl.
  destruct (last_writer fld calls2) as [w|] eqn:E; [reflexivity|].
  destruct (targets fld c) eqn:Et; [|reflexivity].
  exfalso. apply targets_spec in Et.
  pose proof (proj1 (last_writer_None context C fld calls2) E c' Hin) as Hne.
  congruence.
Qed.

(** An Option leaves the options as they are exactly when its target field
    already holds its argument. *)
Theorem option_noop_iff c op :
  f (make c) op = op ↔ get (target c) op = argument c.
Proof.
  split.
  - intros E. rewrite <- E at 1. rewrite get_make.
    by assert (targets (target c) c = true) as -> by by apply targets_spec.
  - destruct c, op; simpl; intros [= ->]; reflexivity.
Qed.
End OptionSequences.

(** ** Runs of the hook, in a row and side by side *)

Section HookRuns.
Variables (context : Type) (Background : context) (OnRequest C : Type).
Context `{!Connection OnRequest C}.
Implicit Types (w : World context C) (h : OnRequest) (c : nat).
Implicit Types (t : invocation context OnRequest).
Implicit Types (ts : list (invocation context OnRequest)).

Lemma prepare_quiet h c w :
  onPrepare (opts w) = None →
  prepare Background h c w =
    (Background,
     Build_World (opts w)
       (installed h (readTimeout (opts w)) (idleTimeout (opts w)) c (conns w))).
Proof. intros Hnil. rewrite prepare_eq. simpl. by rewrite Hnil. Qed.

(** With no callback configured, runs of the hook on two different
    connections can be swapped: both orders leave the same world. *)
Theorem prepare_commute w h1 h2 c1 c2 :
  onPrepare (opts w) = None → c1 ≠ c2 →
  (prepare Background h2 c2 (prepare Background h1 c1 w).2).2 =
  (prepare Background h1 c1 (prepare Background h2 c2 w).2).2.
Proof.
  intros Hnil Hne.
  rewrite (prepare_quiet h1 c1 w Hnil), (prepare_quiet h2 c2 w Hnil); simpl.
  rewrite !prepare_quiet by done. simpl. f_equal.
  apply map_eq. intros k.
  destruct (decide (k = c1)) as [->|Hk1].
  - rewrite installed_ne, !installed_eq, installed_ne by done. reflexivity.
  - rewrite (installed_ne _ _ h1 _ _ c1 k) by done.
    destruct (decide (k = c2)) as [->|Hk2].
    + rewrite !installed_eq, installed_ne by done. reflexivity.
    + by rewrite !installed_ne by done.
Qed.

Section Lawful.
Context `{!Observable OnRequest C, !ConnectionSpec OnRequest C}.

(** Running the hook again on a connection, with the same or with another
    handler and no callback configured, leaves the connection with the
    handler of the last run and the configured timeouts; the options and the
    other connections are untouched. *)
Theorem prepare_again w h1 h2 c :
  onPrepare (opts w) = None → is_Some (conns w !! c) →
  let w1 := (prepare Background h1 c w).2 in
  let w2 := (prepare Background h2 c w1).2 in
  initialised h2 (readTimeout (opts w)) (idleTimeout (opts w)) c (conns w2) ∧
  opts w2 = opts w ∧
  (∀ c', c' ≠ c → conns w2 !! c' = conns w !! c').
Proof.
  intros Hnil Hlive w1 w2. unfold w2, w1.
  rewrite (prepare_quiet h1 c w Hnil); simpl.
  rewrite prepare_quiet by done. simpl.
  split; [|split; [reflexivity|]].
  - apply installed_initialised; [done|]. rewrite installed_eq.
    destruct Hlive as [x ->]. by eexists.
  - intros c' Hc'. by rewrite !installed_ne.
Qed.
End Lawful.

(** What a row of hook runs on pairwise distinct connections leaves behind
    when no callback is configured. *)
Lemma prepare_all_quiet (calls : list (OnRequest * nat)) : ∀ w,
  onPrepare (opts w) = None → NoDup calls.*2 →
  let out := prepare_all Background calls w in
  out.1 = (λ _, Background) <$> calls ∧
  opts out.2 = opts w ∧
  (∀ h c, (h, c) ∈ calls →
     conns out.2 !! c =
       installed h (readTimeout (opts w)) (idleTimeout (opts w)) c (conns w)
         !! c) ∧
  (∀ c', c' ∉ calls.*2 → conns out.2 !! c' = conns w !! c').
Proof.
  induction calls as [|[h c] calls IH]; intros w Hnil Hnd; simpl.
  - split; [done|]. split; [done|]. split; [|done].
    intros h c Hin. by apply elem_of_nil in Hin.
  - rewrite fmap_cons in Hnd. apply NoDup_cons in Hnd as [Hnotin Hnd].
    unfold bind. rewrite (prepare_quiet h c w Hnil).
    set (w1 := Build_World (opts w) _).
    destruct (IH w1 Hnil Hnd) as (Hctx & Hopts & Hcalls & Hothers).
    destruct (prepare_all Background calls w1) as [ctxs w'].
    simpl in *. split; [by rewrite Hctx|]. split; [done|]. split.
    + intros h' c' Hin. apply elem_of_cons in Hin as [[= -> ->]|Hin].
      * by rewrite Hothers.
      * rewrite (Hcalls h' c' Hin), !installed_eq.
        rewrite installed_ne; [done|]. intros ->. apply Hnotin.
        apply list_elem_of_fmap. by exists (h', c).
    + intros c' Hc'. rewrite Hothers.
      * apply installed_ne. intros ->. apply Hc'. apply elem_of_cons. by left.
      * intros Hin. apply Hc'. apply elem_of_cons. by right.
Qed.

(** Hook invocations on pairwise distinct connections, with no callback
    configured, interleaved in any way that lets each of them take its four
    steps, leave the world that running them one after another leaves, and
    return the same contexts. *)
Theorem interleave_sequential schedule (calls : list (OnRequest * nat)) w0 :
  onPrepare (opts w0) = None → NoDup calls.*2 →
  (∀ k, (k < length calls)%nat → (4 ≤ length (filter (k =.) schedule))%nat) →
  let out :=
    interleave Background schedule ((λ p, start p.1 p.2) <$> calls) w0 in
  let seq := prepare_all Background calls w0 in
  out.2 = seq.2 ∧ at_pc <$> out.1 = returned <$> seq.1.
Proof.
  intros Hnil Hnd Hfair out seq.
  destruct (interleave_fair context Background OnRequest C schedule calls w0 Hnil Hnd Hfair)
    as ((Hopts & Hts & Hothers) & Hout).
  fold out in Hopts, Hts, Hothers, Hout.
  destruct (prepare_all_quiet calls w0 Hnil Hnd)
    as (Sctx & Sopts & Scalls & Sothers).
  fold seq in Sctx, Sopts, Scalls, Sothers.
  split.
  - destruct out.2 as [o1 m1], seq.2 as [o2 m2]; simpl in *.
    f_equal; [congruence|]. apply map_eq. intros k.
    destruct (decide (k ∈ calls.*2)) as [Hin|Hnotin].
    + apply list_elem_of_fmap in Hin as ([h c] & -> & Hin). simpl.
      rewrite (Scalls h c Hin).
      apply list_elem_of_lookup in Hin as [j Hj].
      destruct (Hts j (Build_invocation h c (returned Background))) as [E _].
      { by rewrite Hout, list_lookup_fmap, Hj. }
      simpl in E. by rewrite E, installed_eq.
    + rewrite Sothers by done. apply Hothers.
      by rewrite Hout, <- list_fmap_compose.
  - rewrite Hout, Sctx, <- !list_fmap_compose. by apply list_fmap_ext.
Qed.

End HookRuns.

(** ** Witnesses of the further properties *)

Lemma factories_rebuild_witness :
  let op : options Sample.context Sample.connection :=
    Build_options None (5 * Second)%Z (30 * Second)%Z in
  let calls : list (factory_call Sample.context Sample.connection) :=
    [CallWithIdleTimeout (30 * Second)%Z; CallWithOnPrepare None;
     CallWithReadTimeout (5 * Second)%Z] in
  let start : options Sample.context Sample.connection :=
    Build_options None 1%Z 2%Z in
  calls ≡ₚ calls_of op ∧ apply_from start (make <$> calls) = op.
Proof.
  intros op calls start.
  assert (calls ≡ₚ calls_of op) as Hp.
  { unfold calls, calls_of; simpl.
    etrans; [apply perm_swap|]. apply perm_skip. apply perm_swap. }
  split; [exact Hp|].
  apply (factories_rebuild Sample.context Sample.connection op start calls Hp).
Defined.

Lemma overwritten_option_dead_witness :
  let start : options Sample.context Sample.connection := zero in
  let calls1 : list (factory_call Sample.context Sample.connection) :=
    [CallWithIdleTimeout (30 * Second)%Z] in
  let c : factory_call Sample.context Sample.connection :=
    CallWithReadTimeout (5 * Second)%Z in
  let calls2 : list (factory_call Sample.context Sample.connection) :=
    [CallWithOnPrepare None; CallWithReadTimeout (10 * Second)%Z] in
  (∃ c', c' ∈ calls2 ∧ target c' = target c) ∧
  apply_from start (make <$> (calls1 ++ c :: calls2)) =
  apply_from start (make <$> (calls1 ++ calls2)).
Proof.
  intros start calls1 c calls2.
  assert (∃ c', c' ∈ calls2 ∧ target c' = target c) as Hlater.
  { exists (CallWithReadTimeout (10 * Second)%Z). split; [|reflexivity].
    apply elem_of_cons. right. apply elem_of_cons. by left. }
  split; [exact Hlater|].
  apply (overwritten_option_dead Sample.context Sample.connection
           start calls1 c calls2 Hlater).
Defined.

Lemma prepare_commute_witness :
  let w := Sample.world (Build_options None (5 * Second)%Z (30 * Second)%Z) in
  onPrepare (opts w) = None ∧ 7%nat ≠ 9%nat ∧
  (prepare Sample.Background "h9" 9 (prepare Sample.Background "h7" 7 w).2).2 =
  (prepare Sample.Background "h7" 7 (prepare Sample.Background "h9" 9 w).2).2.
Proof.
  intros w. split; [reflexivity|]. split; [lia|].
  apply (prepare_commute Sample.context Sample.Background Sample.OnRequest
           Sample.connection w "h7" "h9" 7%nat 9%nat); [reflexivity | lia].
Defined.

Lemma prepare_again_witness :
  let w := Sample.world (Build_options None (5 * Second)%Z (30 * Second)%Z) in
  let w1 := (prepare Sample.Background "first" 7 w).2 in
  let w2 := (prepare Sample.Background "second" 7 w1).2 in
  onPrepare (opts w) = None ∧ is_Some (conns w !! 7%nat) ∧
  (initialised "second" (5 * Second)%Z (30 * Second)%Z 7 (conns w2) ∧
   opts w2 = opts w ∧
   (∀ c', c' ≠ 7%nat → conns w2 !! c' = conns w !! c')).
Proof.
  intros w w1 w2.
  assert (is_Some (conns w !! 7%nat)) as Hlive by (by eexists).
  split; [reflexivity|]. split; [exact Hlive|].
  apply (prepare_again Sample.context Sample.Background Sample.OnRequest
           Sample.connection (ConnectionSpec0 := sample_connection_spec)
           w "first" "second" 7%nat eq_refl Hlive).
Defined.

Lemma interleave_independent_witness :
  let w0 := Sample.world (Build_options None (5 * Second)%Z (30 * Second)%Z) in
  let calls : list (Sample.OnRequest * nat) := [("h7", 7%nat); ("h9", 9%nat)] in
  let schedule := [0; 1; 1; 0; 1; 0; 0; 1]%nat in
  let out :=
    interleave Sample.Background schedule ((λ p, start p.1 p.2) <$> calls) w0 in
  onPrepare (opts w0) = None ∧ NoDup calls.*2 ∧
  (∀ k, (k < length calls)%nat → (4 ≤ length (filter (k =.) schedule))%nat) ∧
  (opts out.2 = opts w0 ∧
   out.1 = (λ p, Build_invocation p.1 p.2 (returned Sample.Background)) <$> calls ∧
   (∀ h c, (h, c) ∈ calls →
      conns out.2 !! c =
        installed h (readTimeout (opts w0)) (idleTimeout (opts w0)) c (conns w0)
          !! c) ∧
   (∀ c', c' ∉ calls.*2 → conns out.2 !! c' = conns w0 !! c')).
Proof.
  intros w0 calls schedule out.
  assert (NoDup calls.*2) as Hnd.
  { simpl. repeat (apply NoDup_cons_2 || apply NoDup_nil_2);
      rewrite ?elem_of_cons, ?elem_of_nil; lia. }
  assert (∀ k, (k < length calls)%nat →
               (4 ≤ length (filter (k =.) schedule))%nat) as Hfair.
  { intros k Hk. destruct k as [|[|k]]; [vm_compute; lia..|simpl in Hk; lia]. }
  split; [reflexivity|]. split; [exact Hnd|]. split; [exact Hfair|].
  apply (interleave_independent Sample.context Sample.Background
           Sample.OnRequest Sample.connection schedule calls w0 eq_refl Hnd Hfair).
Defined.

Lemma interleave_sequential_witness :
  let w0 := Sample.world (Build_options None (5 * Second)%Z (30 * Second)%Z) in
  let calls : list (Sample.OnRequest * nat) := [("h7", 7%nat); ("h9", 9%nat)] in
  let schedule := [1; 0; 0; 1; 1; 0; 1; 0; 0]%nat in
  let out :=
    interleave Sample.Background schedule ((λ p, start p.1 p.2) <$> calls) w0 in
  let seq := prepare_all Sample.Background calls w0 in
  onPrepare (opts w0) = None ∧ NoDup calls.*2 ∧
  (∀ k, (k < length calls)%nat → (4 ≤ length (filter (k =.) schedule))%nat) ∧
  (out.2 = seq.2 ∧ at_pc <$> out.1 = returned <$> seq.1).
Proof.
  intros w0 calls schedule out seq.
  assert (NoDup calls.*2) as Hnd.
  { simpl. repeat (apply NoDup_cons_2 || apply NoDup_nil_2);
      rewrite ?elem_of_cons, ?elem_of_nil; lia. }
  assert (∀ k, (k < length calls)%nat →
               (4 ≤ length (filter (k =.) schedule))%nat) as Hfair.
  { intros k Hk. destruct k as [|[|k]]; [vm_compute; lia..|simpl in Hk; lia]. }
  split; [reflexivity|]. split; [exact Hnd|]. split; [exact Hfair|].
  apply (interleave_sequential Sample.context Sample.Background
           Sample.OnRequest Sample.connection schedule calls w0 eq_refl Hnd Hfair).
Defined.

(** ** Resolution and the zero Option *)

